(** * blog-mocking: the listener configuration and its initializer

    A shallow embedding of [src/app.ts] ([init], [LISTENER_CONFIG]) and of
    [effects.ts] ([aliceEffect], [bobEffect]) as printed in the README,
    together with the part of the host environment that [init] and the test
    files drive: the event listener list of [window], [console.debug], and
    the delivery of an event dispatched on [document.body]. *)

From stdpp Require Import base option list strings gmap.

(** ** Data model *)

(** [new Event(type, { bubbles })]. *)
Record Event := mkEvent { type : string; bubbles : bool }.

(** [type tHandler = (event: Event) => void].  A handler is a function
    object; the host compares callbacks by reference, so a handler is
    represented by the identity of its function object: the two functions
    exported by [effects.ts], or any other function [fn ref] (the sinon
    stubs of [app.test.ts], say), whose body has no effect that is
    observed here. *)
Inductive tHandler : Type :=
  | aliceEffect
  | bobEffect
  | fn (ref : nat).

#[global] Instance tHandler_eq_dec : EqDecision tHandler.
Proof. solve_decision. Defined.

#[global] Instance Event_eq_dec : EqDecision Event.
Proof. solve_decision. Defined.

(** [tHandler | tHandler[]]: the value of one configuration property. *)
Inductive tValue : Type :=
  | Single (handler : tHandler)
  | Many (handlers : list tHandler).

(** [type tConfig = { [x: string]: tHandler | tHandler[] }]: the own
    enumerable string-keyed properties of the object, in the order in which
    [Object.entries] enumerates them. *)
Abbreviation tConfig := (list (string * tValue)).

(** A reference to a configuration object on the heap. *)
Abbreviation loc := positive.

(** One entry of an event listener list.  [init] never passes options, so
    every listener is a non-capturing one and is identified by its event
    type and its callback. *)
Abbreviation Listener := (string * tHandler)%type.

(** The state the program and its tests can touch. *)
Record World := mkWorld {
  (** configuration objects built by callers of [init] *)
  objects : gmap loc tConfig;
  (** the event listener list of [window] *)
  listeners : list Listener;
  (** the arguments of every [window.addEventListener] call, oldest first *)
  calls : list Listener;
  (** every handler invocation with the event it received, oldest first
      (what a spy around the handler records) *)
  invoked : list (tHandler * Event);
  (** the arguments of every [console.debug] call, oldest first *)
  console : list string
}.

(** ** Effectful code: a state monad over [World] *)

Definition JS (A : Type) : Type := World -> A * World.

Definition ret {A} (a : A) : JS A := fun w => (a, w).

Definition bind {A B} (m : JS A) (k : A -> JS B) : JS B :=
  fun w => let '(a, w') := m w in k a w'.

Declare Scope js_scope.
Delimit Scope js_scope with js.
Notation "x <- m ;; k" := (bind m (fun x => k))
  (at level 100, m at next level, right associativity) : js_scope.
Notation "m ;; k" := (bind m (fun _ => k))
  (at level 100, right associativity) : js_scope.
Open Scope js_scope.

(** The state in which a computation leaves the world. *)
Definition exec {A} (m : JS A) (w : World) : World := (m w).2.

(** [for (const x of xs) body(x)] *)
Fixpoint for_of {A} (xs : list A) (body : A -> JS unit) : JS unit :=
  match xs with
  | [] => ret tt
  | x :: xs' => body x ;; for_of xs' body
  end.

(** ** The host environment *)

(** [Object.entries(config)]: a fresh array of the [key, value] pairs of
    the object; the object is only read.  A reference always leads to an
    object: a location that holds none is read as an object without
    properties. *)
Definition Object_entries (config : loc) : JS tConfig :=
  fun w => (default [] (objects w !! config), w).

(** lodash's [castArray(value)]: [isArray(value) ? value : [value]]. *)
Definition castArray (value : tValue) : list tHandler :=
  match value with
  | Single handler => [handler]
  | Many handlers => handlers
  end.

(** [window.addEventListener(type, callback)], after the DOM Standard's
    "add an event listener" (which jsdom, the test environment of
    [jest.config.js], implements): the listener is appended to the
    target's list unless the list already holds a listener with the same
    type, callback and capture flag. *)
Definition window_addEventListener (type : string) (callback : tHandler)
  : JS unit :=
  fun w =>
    (tt, {| objects := objects w;
            listeners :=
              if decide ((type, callback) ∈ listeners w)
              then listeners w
              else listeners w ++ [(type, callback)];
            calls := calls w ++ [(type, callback)];
            invoked := invoked w;
            console := console w |}).

(** [console.debug(message)] *)
Definition console_debug (message : string) : JS unit :=
  fun w =>
    (tt, {| objects := objects w;
            listeners := listeners w;
            calls := calls w;
            invoked := invoked w;
            console := console w ++ [message] |}).

(** ** effects.ts *)

(** The body of each handler.
<<
export function aliceEffect(_event: Event) {
  console.debug("foo_event in aliceEffect()");
}
export function bobEffect(_event: Event) {
  // same effect, regardless of the event received
  console.debug("bar_event in bobEffect()");
}
>> *)
Definition body (handler : tHandler) (_event : Event) : JS unit :=
  match handler with
  | aliceEffect => console_debug "foo_event in aliceEffect()"
  | bobEffect => console_debug "bar_event in bobEffect()"
  | fn _ => ret tt
  end.

(** The host calling a listener's callback with the event. *)
Definition call (handler : tHandler) (event : Event) : JS unit :=
  (fun w =>
     (tt, {| objects := objects w;
             listeners := listeners w;
             calls := calls w;
             invoked := invoked w ++ [(handler, event)];
             console := console w |})) ;;
  body handler event.

(** The callbacks of the listeners of one event type, in list order. *)
Definition callbacks (ty : string) (ls : list Listener) : list tHandler :=
  (filter (fun l => l.1 = ty) ls).*2.

(** Whether an event dispatched on [document.body] gets to [window],
    the last stop of the bubbling phase: the event must bubble, or it
    stops at [document.body]; and its type must not be ["load"], which a
    document does not pass on to its window (DOM Standard, a document's
    "get the parent"; jsdom does the same). *)
Definition reaches_window (event : Event) : bool :=
  bubbles event && bool_decide (type event <> "load").

(** [document.body.dispatchEvent(event)], as far as [window] is concerned:
    an event that reaches [window] reaches the listeners of its type
    registered there, which the host calls in the order of the list as it
    stands when delivery starts. *)
Definition dispatchEvent (event : Event) : JS unit :=
  if reaches_window event
  then fun w =>
         for_of (callbacks (type event) (listeners w))
                (fun handler => call handler event) w
  else ret tt.

(** ** app.ts *)

(**
<<
const LISTENER_CONFIG: tConfig = {
  foo_event: [aliceEffect, bobEffect],
  bar_event: bobEffect,
};
>>
    The constant is private to the module and nothing writes to it, so it
    is a value rather than a heap object. *)
Definition LISTENER_CONFIG : tConfig :=
  [ ("foo_event", Many [aliceEffect; bobEffect]);
    ("bar_event", Single bobEffect) ].

(**
<<
export function init(config: tConfig = LISTENER_CONFIG) {
  for (const [event, handlers] of Object.entries(config))
    for (const handler of castArray(handlers))
      window.addEventListener(event, handler);
}
>>
    [None] is the call without an argument. *)
Definition init (config : option loc) : JS unit :=
  entries <- match config with
             | Some config => Object_entries config
             | None => ret LISTENER_CONFIG
             end ;;
  for_of entries (fun '(event, handlers) =>
    for_of (castArray handlers) (fun handler =>
      window_addEventListener event handler)).

(** ** The tests' vocabulary *)

(** A target nothing has been registered on, no object allocated, nothing
    called or logged. *)
Definition fresh : World :=
  {| objects := ∅; listeners := []; calls := []; invoked := []; console := [] |}.

(** [spy.callCount]: how many times a handler has been invoked. *)
Definition callCount (handler : tHandler) (w : World) : nat :=
  length (filter (fun i => i.1 = handler) (invoked w)).

(** How many entries of a listener list are the pair [(event, handler)]. *)
Definition registered (event : string) (handler : tHandler)
    (ls : list Listener) : nat :=
  length (filter (fun l => l = (event, handler)) ls).

(** A caller building (or rebuilding) a configuration object. *)
Definition store (l : loc) (config : tConfig) (w : World) : World :=
  {| objects := <[l := config]> (objects w);
     listeners := listeners w;
     calls := calls w;
     invoked := invoked w;
     console := console w |}.

(** What the program and its environment can do to the world. *)
Inductive step : World -> World -> Prop :=
  | step_store l config w : step w (store l config w)
  | step_init config w : step w (exec (init config) w)
  | step_dispatch event w : step w (exec (dispatchEvent event) w).

(** The worlds a run can be in, starting from [fresh]. *)
Definition reachable (w : World) : Prop := rtc step fresh w.

(** [new Event(eventType, { bubbles: true })] *)
Definition bubbling (eventType : string) : Event :=
  {| type := eventType; bubbles := true |}.

(** The loop of [app.test.ts]:
<<
for (const eventType of [...])
  document.body.dispatchEvent(new Event(eventType, { bubbles: true }));
>> *)
Definition raise_all (eventTypes : list string) : JS unit :=
  for_of eventTypes (fun eventType => dispatchEvent (bubbling eventType)).

(** The configuration of the [init] test of [app.test.ts], over its four
    stubs of which [stubD] is left out. *)
Definition config_1 (stubA stubB stubC : tHandler) : tConfig :=
  [ ("zim", Single stubC);
    ("gir", Many [stubC; stubB]);
    ("dib", Many [stubC; stubB; stubA]);
    ("gaz", Many []) ].

(** The configuration of the second scenario: [{ foo_event: [A, B] }]
    with the two handlers of [effects.ts]. *)
Definition config_2 : tConfig :=
  [ ("foo_event", Many [aliceEffect; bobEffect]) ].

(** ** The attachment algorithm in the specification's words *)

(** "a single handler becomes a one-element sequence; already-a-sequence
    values pass through unchanged" *)
Definition normalize (value : tValue) : list tHandler :=
  match value with
  | Single handler => [handler]
  | Many handlers => handlers
  end.

(** "For each handler in the resulting sequence, register it as a listener
    for that event type": the (eventType, handler) pairs of a
    configuration, entry by entry. *)
Definition registrations (config : tConfig) : list Listener :=
  '(event, value) ← config; (event,.) <$> normalize value.

(** ** The claims as the specification states them, where the program
    differs *)

(** C2 as stated: registration is purely additive, every pair of the
    configuration being appended to the target's list whatever the list
    holds already. *)
Definition purely_additive : Prop :=
  forall (w : World) (c : loc) (config : tConfig),
    objects w !! c = Some config ->
    listeners (exec (init (Some c)) w) = listeners w ++ registrations config.

(** C3 as stated: after two [init] calls with the same configuration
    object against the same target, one event whose type is a key, and
    which reaches the target, invokes each handler listed under that key
    twice. *)
Definition reinit_invokes_twice : Prop :=
  forall (w : World) (c : loc) (config : tConfig)
         (event : Event) (value : tValue) (handler : tHandler),
    objects w !! c = Some config ->
    NoDup (listeners w) ->
    bubbles event = true ->
    type event <> "load" ->
    (type event, value) ∈ config ->
    handler ∈ castArray value ->
    callCount handler
      (exec (dispatchEvent event)
         (exec (init (Some c)) (exec (init (Some c)) w)))
    = callCount handler w + 2.

(** C5 as stated: with [{ foo_event: [A, B] }] on a target without
    listeners, one [foo_event] logs the two strings ["foo_event in A()"]
    and ["bar_event in B()"]. *)
Definition logs_A_and_B : Prop :=
  forall (w : World) (c : loc),
    objects w !! c = Some config_2 ->
    listeners w = [] ->
    console (exec (init (Some c) ;; dispatchEvent (bubbling "foo_event")) w)
    = console w ++ ["foo_event in A()"; "bar_event in B()"].

(** ** The effect of the loops, in closed form *)

(** One "add an event listener" step on a listener list. *)
Definition add_listener (ls : list Listener) (l : Listener) : list Listener :=
  if decide (l ∈ ls) then ls else ls ++ [l].

(** The world after [window.addEventListener] was called on each pair. *)
Definition register_all (rs : list Listener) (w : World) : World :=
  {| objects := objects w;
     listeners := foldl add_listener (listeners w) rs;
     calls := calls w ++ rs;
     invoked := invoked w;
     console := console w |}.

(** What a handler's body writes to the console. *)
Definition output (handler : tHandler) : list string :=
  match handler with
  | aliceEffect => ["foo_event in aliceEffect()"]
  | bobEffect => ["bar_event in bobEffect()"]
  | fn _ => []
  end.

(** The callbacks on [window] that an event dispatched on [document.body]
    gets to, in list order. *)
Definition delivered (event : Event) (ls : list Listener) : list tHandler :=
  if reaches_window event then callbacks (type event) ls else [].

(** The world after the host called each handler with the event. *)
Definition deliver (hs : list tHandler) (event : Event) (w : World) : World :=
  {| objects := objects w;
     listeners := listeners w;
     calls := calls w;
     invoked := invoked w ++ ((., event) <$> hs);
     console := console w ++ (hs ≫= output) |}.

(** ** Earlier stages of the program, as the README prints them *)

(** [type tConfig = { [x: string]: tHandler }]: the configuration type of
    the first stages, one handler per event type.  [init] only reads the
    object, which is given here by its entries. *)
Abbreviation tConfig_v1 := (list (string * tHandler)).

(**
<<
export function init(config: tConfig = LISTENER_CONFIG) {
  for (const [event, handler] of Object.entries(config))
    window.addEventListener(event, handler);
}
>>
    The module constant changed between the stages, so it is an argument:
    [constant] stands for the [LISTENER_CONFIG] of the stage. *)
Definition init_v1 (constant : tConfig_v1) (config : option tConfig_v1)
  : JS unit :=
  for_of (match config with Some config => config | None => constant end)
    (fun '(event, handler) => window_addEventListener event handler).

(** [LISTENER_CONFIG] once [bobEffect] had been added:
<<
const LISTENER_CONFIG: tConfig = {
  foo_event: aliceEffect,
  bar_event: bobEffect
};
>> *)
Definition LISTENER_CONFIG_v1 : tConfig_v1 :=
  [ ("foo_event", aliceEffect); ("bar_event", bobEffect) ].

(** [effects.ts] of the "Logic creep" section:
<<
export function aliceEffect(event: Event) {
  console.debug("foo_event in aliceEffect()");
  bobEffect(event);
}
>>
    [aliceEffect] calls the [bobEffect] of its own module, not the export
    the tests wrap in a spy; the other bodies are as before. *)
Definition body_logic_creep (handler : tHandler) (event : Event) : JS unit :=
  match handler with
  | aliceEffect =>
      console_debug "foo_event in aliceEffect()" ;; body bobEffect event
  | _ => body handler event
  end.

(** [call] and [dispatchEvent] over the handler bodies of a stage. *)
Definition call_with (body : tHandler -> Event -> JS unit)
    (handler : tHandler) (event : Event) : JS unit :=
  (fun w =>
     (tt, {| objects := objects w;
             listeners := listeners w;
             calls := calls w;
             invoked := invoked w ++ [(handler, event)];
             console := console w |})) ;;
  body handler event.

Definition dispatchEvent_with (body : tHandler -> Event -> JS unit)
    (event : Event) : JS unit :=
  if reaches_window event
  then fun w =>
         for_of (callbacks (type event) (listeners w))
                (fun handler => call_with body handler event) w
  else ret tt.

(** ** More vocabulary *)

(** The handler is listed under the event type in the configuration. *)
Definition listed (event : string) (handler : tHandler) (config : tConfig)
  : Prop :=
  exists value, (event, value) ∈ config /\ handler ∈ castArray value.

(** The entries [init] works from, given its argument. *)
Definition entries_of (config : option loc) (w : World) : tConfig :=
  match config with
  | Some config => default [] (objects w !! config)
  | None => LISTENER_CONFIG
  end.

(** What a handler's body writes to the console in the "Logic creep"
    stage. *)
Definition output_logic_creep (handler : tHandler) : list string :=
  match handler with
  | aliceEffect => output aliceEffect ++ output bobEffect
  | _ => output handler
  end.

(** [deliver] over the console output of a stage. *)
Definition deliver_with (output : tHandler -> list string)
    (hs : list tHandler) (event : Event) (w : World) : World :=
  {| objects := objects w;
     listeners := listeners w;
     calls := calls w;
     invoked := invoked w ++ ((., event) <$> hs);
     console := console w ++ (hs ≫= output) |}.

(** * Lemmas *)

Section monad.
Context {A B : Type}.

Lemma exec_bind (m : JS A) (k : A -> JS B) w :
  exec (x <- m ;; k x) w = exec (k (m w).1) (m w).2.
Proof. unfold exec, bind. by destruct (m w). Qed.

Lemma exec_seq (m : JS unit) (k : JS B) w :
  exec (m ;; k) w = exec k (exec m w).
Proof. unfold exec, bind. by destruct (m w). Qed.

Lemma result_unit (m : JS unit) w : (m w).1 = tt.
Proof. by destruct (m w).1. Qed.
End monad.

Lemma run_unit (m : JS unit) w : m w = (tt, exec m w).
Proof. unfold exec. by destruct (m w) as [[] ?]. Qed.

Section listener_lists.
Implicit Types (l : Listener) (ls rs : list Listener).

Lemma elem_of_add_listener l l' ls :
  l' ∈ add_listener ls l <-> l' ∈ ls \/ l' = l.
Proof.
  unfold add_listener. case_decide as Hin.
  - split; [by left|]. intros [?| ->]; done.
  - by rewrite elem_of_app, list_elem_of_singleton.
Qed.

Lemma elem_of_add_all rs : forall ls l,
  l ∈ foldl add_listener ls rs <-> l ∈ ls \/ l ∈ rs.
Proof.
  induction rs as [|r rs IH]; intros ls l; simpl.
  - split; [by left|]. intros [?|Hin]; [done|]. by apply elem_of_nil in Hin.
  - rewrite IH, elem_of_add_listener, elem_of_cons. tauto.
Qed.

Lemma NoDup_add_listener l ls : NoDup ls -> NoDup (add_listener ls l).
Proof.
  intros Hnd. unfold add_listener. case_decide; [done|].
  apply NoDup_app. split_and!; [done| |apply NoDup_singleton].
  intros x Hx ->%list_elem_of_singleton. done.
Qed.

Lemma NoDup_add_all rs : forall ls,
  NoDup ls -> NoDup (foldl add_listener ls rs).
Proof.
  induction rs as [|r rs IH]; intros ls Hnd; simpl; [done|].
  by apply IH, NoDup_add_listener.
Qed.

Lemma prefix_add_all rs : forall ls, ls `prefix_of` foldl add_listener ls rs.
Proof.
  induction rs as [|r rs IH]; intros ls; simpl; [done|].
  etrans; [|apply IH]. unfold add_listener.
  case_decide; [done|]. by apply prefix_app_r.
Qed.

Lemma add_all_present rs : forall ls,
  (forall l, l ∈ rs -> l ∈ ls) -> foldl add_listener ls rs = ls.
Proof.
  induction rs as [|r rs IH]; intros ls Hin; simpl; [done|].
  unfold add_listener at 2.
  rewrite decide_True by (apply Hin; left).
  apply IH. intros l Hl. apply Hin. by right.
Qed.

Lemma filter_none {X} (P : X -> Prop) `{forall x, Decision (P x)}
    (xs : list X) :
  (forall x, x ∈ xs -> ~ P x) -> filter P xs = [].
Proof.
  induction xs as [|x xs IH]; intros Hno; [done|].
  rewrite filter_cons_False by (apply Hno; left).
  apply IH. intros y Hy. apply Hno. by right.
Qed.

Lemma registered_NoDup event handler ls :
  NoDup ls -> (event, handler) ∈ ls -> registered event handler ls = 1.
Proof.
  unfold registered. induction 1 as [|x ls Hx Hnd IH]; intros Hin.
  - by apply elem_of_nil in Hin.
  - apply elem_of_cons in Hin as [<-|Hin].
    + rewrite filter_cons_True by done. simpl. f_equal.
      rewrite filter_none; [done|]. by intros y Hy ->.
    + rewrite filter_cons_False by (intros ->; done). by apply IH.
Qed.

Lemma registered_le_1 event handler ls :
  NoDup ls -> registered event handler ls <= 1.
Proof.
  intros Hnd. destruct (decide ((event, handler) ∈ ls)) as [Hin|Hin].
  - by rewrite registered_NoDup.
  - unfold registered. rewrite filter_none; [simpl; lia|]. by intros y Hy ->.
Qed.
End listener_lists.

Lemma castArray_normalize value : castArray value = normalize value.
Proof. by destruct value. Qed.

Section registering.
Implicit Types (rs : list Listener) (w : World).

Lemma register_all_nil w : register_all [] w = w.
Proof. destruct w. unfold register_all. simpl. by rewrite app_nil_r. Qed.

Lemma register_all_app rs1 rs2 w :
  register_all (rs1 ++ rs2) w = register_all rs2 (register_all rs1 w).
Proof.
  unfold register_all. simpl. by rewrite foldl_app, app_assoc.
Qed.

Lemma addEventListener_register event handler w :
  window_addEventListener event handler w
  = (tt, register_all [(event, handler)] w).
Proof. reflexivity. Qed.

(** The inner loop: one event type, its handlers in order. *)
Lemma inner_loop event (hs : list tHandler) : forall w,
  for_of hs (fun handler => window_addEventListener event handler) w
  = (tt, register_all ((event,.) <$> hs) w).
Proof.
  induction hs as [|h hs IH]; intros w; simpl.
  - unfold ret. by rewrite register_all_nil.
  - unfold bind. rewrite addEventListener_register, IH.
    by rewrite <- register_all_app.
Qed.

(** The outer loop over the entries of a configuration. *)
Lemma outer_loop (entries : tConfig) : forall w,
  for_of entries (fun '(event, handlers) =>
    for_of (castArray handlers) (fun handler =>
      window_addEventListener event handler)) w
  = (tt, register_all (registrations entries) w).
Proof.
  induction entries as [|[event value] entries IH]; intros w.
  - simpl. unfold ret. by rewrite register_all_nil.
  - cbn [for_of]. unfold bind at 1. rewrite inner_loop, IH.
    unfold registrations. rewrite bind_cons, register_all_app.
    by rewrite castArray_normalize.
Qed.

Lemma init_explicit c config w :
  objects w !! c = Some config ->
  init (Some c) w = (tt, register_all (registrations config) w).
Proof.
  intros Hc. unfold init, bind, Object_entries. cbv beta.
  rewrite Hc. apply outer_loop.
Qed.

Lemma init_default w :
  init None w = (tt, register_all (registrations LISTENER_CONFIG) w).
Proof. unfold init, bind, ret. apply outer_loop. Qed.

(** Whatever the argument, [init] registers the pairs of some list. *)
Lemma init_is_register_all config w :
  exists rs, init config w = (tt, register_all rs w).
Proof.
  destruct config as [c|].
  - destruct (objects w !! c) as [config|] eqn:Hc.
    + eexists. by apply init_explicit.
    + exists []. unfold init, bind, Object_entries. cbv beta.
      rewrite Hc. simpl. unfold ret. by rewrite register_all_nil.
  - eexists. apply init_default.
Qed.
End registering.

Section delivering.
Implicit Types (hs : list tHandler) (w : World).

Lemma deliver_nil event w : deliver [] event w = w.
Proof. destruct w. unfold deliver. simpl. by rewrite !app_nil_r. Qed.

Lemma deliver_app hs1 hs2 event w :
  deliver (hs1 ++ hs2) event w = deliver hs2 event (deliver hs1 event w).
Proof.
  unfold deliver. simpl. by rewrite fmap_app, bind_app, !app_assoc.
Qed.

Lemma call_deliver handler event w :
  call handler event w = (tt, deliver [handler] event w).
Proof.
  unfold call, bind, deliver. simpl. rewrite app_nil_r.
  destruct handler; simpl; unfold ret; [done..|]. by rewrite app_nil_r.
Qed.

Lemma delivery_loop event hs : forall w,
  for_of hs (fun handler => call handler event) w = (tt, deliver hs event w).
Proof.
  induction hs as [|h hs IH]; intros w; simpl.
  - unfold ret. by rewrite deliver_nil.
  - unfold bind. rewrite call_deliver, IH. by rewrite <- deliver_app.
Qed.

Lemma reaches_window_true event :
  bubbles event = true -> type event <> "load" -> reaches_window event = true.
Proof.
  intros Hb Hty. unfold reaches_window. rewrite Hb. simpl.
  by apply bool_decide_eq_true.
Qed.

Lemma reaches_window_bubbling eventType :
  eventType <> "load" -> reaches_window (bubbling eventType) = true.
Proof. intros Hty. by apply reaches_window_true. Qed.

Lemma dispatchEvent_reaching event w :
  reaches_window event = true ->
  dispatchEvent event w
  = (tt, deliver (callbacks (type event) (listeners w)) event w).
Proof. intros Hb. unfold dispatchEvent. rewrite Hb. apply delivery_loop. Qed.

Lemma dispatchEvent_not_reaching event w :
  reaches_window event = false -> dispatchEvent event w = (tt, w).
Proof. intros Hb. unfold dispatchEvent. by rewrite Hb. Qed.

Lemma callCount_deliver handler hs event w :
  callCount handler (deliver hs event w)
  = callCount handler w + length (filter (fun h => h = handler) hs).
Proof.
  unfold callCount, deliver. simpl. rewrite filter_app, length_app. f_equal.
  induction hs as [|h hs IH]; [done|]. rewrite fmap_cons.
  destruct (decide (h = handler)) as [Heq|Hne].
  - rewrite !filter_cons_True by done. simpl. by rewrite IH.
  - rewrite !filter_cons_False by done. done.
Qed.
End delivering.

Section callbacks_facts.
Implicit Types (ls : list Listener).

Lemma callbacks_app ty ls1 ls2 :
  callbacks ty (ls1 ++ ls2) = callbacks ty ls1 ++ callbacks ty ls2.
Proof. unfold callbacks. by rewrite filter_app, fmap_app. Qed.

Lemma elem_of_callbacks ty handler ls :
  handler ∈ callbacks ty ls <-> (ty, handler) ∈ ls.
Proof.
  unfold callbacks. rewrite list_elem_of_fmap. split.
  - intros [[ty' h] [-> [Hty Hin]%list_elem_of_filter]]. simpl in *.
    by subst.
  - intros Hin. exists (ty, handler). split; [done|].
    apply list_elem_of_filter. by split.
Qed.

(** Among the callbacks of one event type, a handler occurs as often as
    its pair occurs in the listener list. *)
Lemma callbacks_count ty handler ls :
  length (filter (fun h => h = handler) (callbacks ty ls))
  = registered ty handler ls.
Proof.
  unfold callbacks, registered.
  induction ls as [|[ty' h] ls IH]; [done|].
  rewrite (filter_cons (fun l : Listener => l.1 = ty)). simpl.
  destruct (decide (ty' = ty)) as [Hty|Hty].
  - rewrite fmap_cons. simpl. rewrite !filter_cons.
    destruct (decide (h = handler)) as [Hh|Hh].
    + subst. rewrite decide_True by done. simpl. by rewrite IH.
    + rewrite decide_False by congruence. done.
  - rewrite filter_cons. rewrite decide_False by congruence. done.
Qed.

Lemma callbacks_nil_iff ty ls :
  callbacks ty ls = [] <-> forall handler, (ty, handler) ∉ ls.
Proof.
  split.
  - intros Hnil handler Hin. apply elem_of_callbacks in Hin.
    rewrite Hnil in Hin. by apply elem_of_nil in Hin.
  - intros Hno. destruct (callbacks ty ls) as [|h hs] eqn:Heq; [done|].
    exfalso. apply (Hno h), elem_of_callbacks. rewrite Heq. left.
Qed.
End callbacks_facts.

Section registrations_facts.
Implicit Types (config : tConfig).

Lemma elem_of_registrations event handler config :
  (event, handler) ∈ registrations config
  <-> exists value, (event, value) ∈ config /\ handler ∈ castArray value.
Proof.
  unfold registrations. rewrite list_elem_of_bind. split.
  - intros [[event' value] [Hin Hcfg]].
    apply list_elem_of_fmap in Hin as [h [[= -> ->] Hh]].
    exists value. by rewrite castArray_normalize.
  - intros [value [Hcfg Hh]]. exists (event, value). split; [|done].
    apply list_elem_of_fmap. exists handler.
    by rewrite <- castArray_normalize.
Qed.

Lemma registrations_app config1 config2 :
  registrations (config1 ++ config2)
  = registrations config1 ++ registrations config2.
Proof. unfold registrations. apply bind_app. Qed.
End registrations_facts.

Section more_listener_lists.
Implicit Types (l : Listener) (ls rs : list Listener).

(** Registering pairs none of which is there yet, and no two of which are
    equal, appends them all. *)
Lemma add_all_new rs : forall ls,
  NoDup (ls ++ rs) -> foldl add_listener ls rs = ls ++ rs.
Proof.
  induction rs as [|r rs IH]; intros ls Hnd; simpl.
  - by rewrite app_nil_r.
  - apply NoDup_app in Hnd as (Hls & Hdisj & [Hr Hrs]%NoDup_cons).
    unfold add_listener at 2.
    rewrite decide_False by (intros Hin; apply (Hdisj _ Hin); left).
    rewrite IH; [by rewrite <- app_assoc|].
    rewrite <- app_assoc. simpl. apply NoDup_app. split_and!; [done| |].
    + intros x Hx. apply Hdisj, Hx.
    + by apply NoDup_cons.
Qed.

(** Registering pairs of other event types does not change which
    callbacks an event type has. *)
Lemma callbacks_add_all_other ty rs : forall ls,
  (forall handler, (ty, handler) ∉ rs) ->
  callbacks ty (foldl add_listener ls rs) = callbacks ty ls.
Proof.
  induction rs as [|[ty' h] rs IH]; intros ls Hno; simpl; [done|].
  rewrite IH by (intros handler Hin; apply (Hno handler); by right).
  unfold add_listener. case_decide; [done|].
  rewrite callbacks_app. unfold callbacks at 2.
  rewrite filter_cons_False, filter_nil, app_nil_r; [done|].
  simpl. intros ->. apply (Hno h). left.
Qed.
End more_listener_lists.

Lemma exec_init_explicit c config w :
  objects w !! c = Some config ->
  exec (init (Some c)) w = register_all (registrations config) w.
Proof. intros Hc. unfold exec. by rewrite (init_explicit _ _ _ Hc). Qed.

Lemma exec_init_default w :
  exec (init None) w = register_all (registrations LISTENER_CONFIG) w.
Proof. unfold exec. by rewrite init_default. Qed.

Lemma exec_dispatchEvent_reaching event w :
  reaches_window event = true ->
  exec (dispatchEvent event) w
  = deliver (callbacks (type event) (listeners w)) event w.
Proof. intros Hb. unfold exec. by rewrite dispatchEvent_reaching. Qed.

(** One event invokes a handler as often as the handler is registered for
    the event's type. *)
Lemma callCount_dispatchEvent handler event w :
  reaches_window event = true ->
  callCount handler (exec (dispatchEvent event) w)
  = callCount handler w + registered (type event) handler (listeners w).
Proof.
  intros Hb. rewrite exec_dispatchEvent_reaching by done.
  by rewrite callCount_deliver, callbacks_count.
Qed.

(** [init] leaves everything but the listener list and the call log as it
    found it. *)
Lemma init_untouched_fields config w :
  objects (exec (init config) w) = objects w
  /\ invoked (exec (init config) w) = invoked w
  /\ console (exec (init config) w) = console w.
Proof.
  destruct (init_is_register_all config w) as [rs Hrs].
  unfold exec. by rewrite Hrs.
Qed.

Lemma dispatchEvent_untouched_fields event w :
  objects (exec (dispatchEvent event) w) = objects w
  /\ listeners (exec (dispatchEvent event) w) = listeners w
  /\ calls (exec (dispatchEvent event) w) = calls w.
Proof.
  destruct (reaches_window event) eqn:Hb.
  - by rewrite exec_dispatchEvent_reaching.
  - unfold exec. by rewrite dispatchEvent_not_reaching.
Qed.

(** Every step keeps the listener list free of duplicates. *)
Lemma step_NoDup w w' : step w w' -> NoDup (listeners w) -> NoDup (listeners w').
Proof.
  intros [l config w0|config w0|event w0] Hnd.
  - done.
  - destruct (init_is_register_all config w0) as [rs Hrs].
    unfold exec. rewrite Hrs. simpl. by apply NoDup_add_all.
  - by rewrite (proj1 (proj2 (dispatchEvent_untouched_fields event w0))).
Qed.

Lemma reachable_NoDup w : reachable w -> NoDup (listeners w).
Proof.
  unfold reachable. revert w.
  apply (rtc_ind_r (fun w => NoDup (listeners w)) fresh).
  - apply NoDup_nil_2.
  - intros w w' _ Hstep Hnd. by eapply step_NoDup.
Qed.

(** One dispatch, whether the event reaches [window] or not. *)
Lemma exec_dispatchEvent event w :
  exec (dispatchEvent event) w
  = deliver (delivered event (listeners w)) event w.
Proof.
  unfold delivered. destruct (reaches_window event) eqn:Hr.
  - by apply exec_dispatchEvent_reaching.
  - unfold exec. rewrite dispatchEvent_not_reaching by done.
    by rewrite deliver_nil.
Qed.

(** What a run of events adds to the record of invocations and to the
    console; the listener list stays as it is. *)
Lemma raise_all_effect (eventTypes : list string) : forall w,
  exec (raise_all eventTypes) w
  = {| objects := objects w;
       listeners := listeners w;
       calls := calls w;
       invoked := invoked w ++
         (eventTypes ≫= fun eventType =>
            (., bubbling eventType)
              <$> delivered (bubbling eventType) (listeners w));
       console := console w ++
         (eventTypes ≫= fun eventType =>
            delivered (bubbling eventType) (listeners w) ≫= output) |}.
Proof.
  unfold raise_all.
  induction eventTypes as [|ty tys IH]; intros w.
  - destruct w. unfold exec. simpl. by rewrite !app_nil_r.
  - cbn [for_of]. rewrite exec_seq, IH, exec_dispatchEvent. simpl.
    f_equal; by rewrite <- app_assoc.
Qed.

Lemma raise_all_invoked (eventTypes : list string) w :
  invoked (exec (raise_all eventTypes) w)
  = invoked w ++
      (eventTypes ≫= fun eventType =>
         (., bubbling eventType)
           <$> delivered (bubbling eventType) (listeners w)).
Proof. by rewrite raise_all_effect. Qed.

(** Closes a goal [(ty, h) ∉ ls] over a short explicit list whose pairs
    differ from [(ty, h)] in their type or, by a hypothesis of the
    context, in their handler. *)
Ltac distinct_pairs :=
  rewrite ?elem_of_cons, ?elem_of_nil;
  intros Hin; repeat (destruct Hin as [Hin|Hin]);
  try (injection Hin; intros; congruence); try done.

(** [app.test.ts], "events": [init()] runs before each test against the
    one [window] of the test file, and the fourth test still sees one
    [console.debug] call for one [bar_event]. *)
Example events_bar_event :
  console (exec (init None ;; init None ;; init None ;; init None ;;
                 dispatchEvent (bubbling "bar_event")) fresh)
  = ["bar_event in bobEffect()"].
Proof. reflexivity. Qed.

(** The failure the README prints for "events > foo_event > logs to
    console.debug()": call 1 and call 2 of [console.debug]. *)
Example events_foo_event :
  console (exec (init None ;; dispatchEvent (bubbling "foo_event")) fresh)
  = ["foo_event in aliceEffect()"; "bar_event in bobEffect()"].
Proof. reflexivity. Qed.

(** After [init], on a list without duplicates, a pair of the
    configuration is in the list exactly once. *)
Lemma registered_after_init w c config event value handler :
  objects w !! c = Some config ->
  NoDup (listeners w) ->
  (event, value) ∈ config ->
  handler ∈ castArray value ->
  registered event handler (listeners (exec (init (Some c)) w)) = 1.
Proof.
  intros Hc Hnd Hin Hh. rewrite (exec_init_explicit _ _ _ Hc). simpl.
  apply registered_NoDup; [by apply NoDup_add_all|].
  apply elem_of_add_all. right. apply elem_of_registrations. eauto.
Qed.

(** * The claims *)

(** C1.  For every configuration object, [init] returns no value and makes
    exactly the registration calls of the attachment algorithm, in order:
    entry by entry, the value normalized to a sequence (a single handler
    to a one-element sequence, a sequence to itself), one
    [window.addEventListener] call per resulting (event type, handler)
    pair.  An event type whose value is the empty sequence gets no call
    and no listener. *)
Theorem init_attaches (w : World) (c : loc) (config : tConfig) :
  objects w !! c = Some config ->
  (init (Some c) w).1 = tt
  /\ calls (exec (init (Some c)) w) = calls w ++ registrations config
  /\ (forall event,
        (forall value, (event, value) ∈ config -> value = Many []) ->
        callbacks event (calls (exec (init (Some c)) w))
          = callbacks event (calls w)
        /\ callbacks event (listeners (exec (init (Some c)) w))
          = callbacks event (listeners w)).
Proof.
  intros Hc. split; [apply result_unit|].
  rewrite (exec_init_explicit _ _ _ Hc). simpl. split; [done|].
  intros event Hempty.
  assert (forall handler, (event, handler) ∉ registrations config) as Hno.
  { intros handler [value [Hin Hh]]%elem_of_registrations.
    rewrite (Hempty _ Hin) in Hh. by apply elem_of_nil in Hh. }
  split.
  - rewrite callbacks_app.
    rewrite (proj2 (callbacks_nil_iff event (registrations config)) Hno).
    by rewrite app_nil_r.
  - by apply callbacks_add_all_other.
Qed.

Lemma init_attaches_witness :
  let w := store 1 [("zim", Single (fn 3)); ("gaz", Many [])] fresh in
  objects w !! 1%positive = Some [("zim", Single (fn 3)); ("gaz", Many [])]
  /\ calls (exec (init (Some 1%positive)) w) = [("zim", fn 3)].
Proof.
  intros w. split; [reflexivity|].
  apply (init_attaches w 1 [("zim", Single (fn 3)); ("gaz", Many [])]).
  reflexivity.
Defined.

(** C6.  A configuration that maps an event type to the single handler
    [h] and one that maps it to the one-element sequence [[h]], all other
    entries being equal, make [init] behave identically: same result,
    same world. *)
Theorem normalization_equivalence
    (t : string) (h : tHandler) (before after : tConfig)
    (w : World) (c1 c2 : loc) :
  objects w !! c1 = Some (before ++ (t, Single h) :: after) ->
  objects w !! c2 = Some (before ++ (t, Many [h]) :: after) ->
  init (Some c1) w = init (Some c2) w.
Proof.
  intros H1 H2.
  rewrite (init_explicit _ _ _ H1), (init_explicit _ _ _ H2).
  by rewrite !registrations_app.
Qed.

Lemma normalization_equivalence_witness :
  let w := store 2 [("zim", Many [fn 3])] (store 1 [("zim", Single (fn 3))] fresh) in
  init (Some 1%positive) w = init (Some 2%positive) w.
Proof.
  intros w.
  apply (normalization_equivalence "zim" (fn 3) [] [] w 1 2); reflexivity.
Defined.

(** C7.  After [init] with a configuration on a target without listeners,
    an event whose type is not a key of the configuration invokes no
    handler: the dispatch leaves the world as it was, so nothing is called
    and nothing is logged. *)
Theorem absent_type_triggers_nothing
    (w : World) (c : loc) (config : tConfig) (event : Event) :
  objects w !! c = Some config ->
  listeners w = [] ->
  type event ∉ config.*1 ->
  callbacks (type event) (listeners (exec (init (Some c)) w)) = []
  /\ exec (dispatchEvent event) (exec (init (Some c)) w)
     = exec (init (Some c)) w.
Proof.
  intros Hc Hfresh Habsent.
  assert (callbacks (type event) (listeners (exec (init (Some c)) w)) = [])
    as Hnone.
  { rewrite (exec_init_explicit _ _ _ Hc). simpl.
    rewrite callbacks_add_all_other; [by rewrite Hfresh|].
    intros handler [value [Hin _]]%elem_of_registrations.
    apply Habsent, list_elem_of_fmap. by exists (type event, value). }
  split; [done|].
  destruct (reaches_window event) eqn:Hb.
  - rewrite exec_dispatchEvent_reaching, Hnone by done. apply deliver_nil.
  - unfold exec at 1. by rewrite dispatchEvent_not_reaching.
Qed.

Lemma absent_type_triggers_nothing_witness :
  let w := store 1 [("zim", Single (fn 3)); ("gaz", Many [])] fresh in
  ("quux" ∉ [("zim", Single (fn 3)); ("gaz", Many [])].*1)
  /\ exec (dispatchEvent (mkEvent "quux" true))
          (exec (init (Some 1%positive)) w)
     = exec (init (Some 1%positive)) w.
Proof.
  intros w. assert ("quux" ∉ [("zim", Single (fn 3)); ("gaz", Many [])].*1)
    as Habsent by (apply (bool_decide_unpack _); vm_compute; exact I).
  split; [exact Habsent|].
  apply (absent_type_triggers_nothing w 1
           [("zim", Single (fn 3)); ("gaz", Many [])] (mkEvent "quux" true));
    [reflexivity|reflexivity|exact Habsent].
Defined.

(** C8.  [init] is callable without an argument and with one.  Either way
    it returns no value.  Without an argument, in any world, it works
    from the built-in default, [foo_event] mapped to
    [[aliceEffect, bobEffect]] and [bar_event] mapped to [bobEffect]: it
    makes the three registration calls of that mapping, and does exactly
    what it does when given an object that holds that mapping.  With a
    configuration object it works from that object instead. *)
Theorem init_entry_point (w : World) :
  ((init None w).1 = tt
   /\ calls (exec (init None) w)
      = calls w ++ [ ("foo_event", aliceEffect); ("foo_event", bobEffect);
                     ("bar_event", bobEffect) ]
   /\ listeners (exec (init None) w)
      = foldl add_listener (listeners w)
          [ ("foo_event", aliceEffect); ("foo_event", bobEffect);
            ("bar_event", bobEffect) ]
   /\ (forall c,
         objects w !! c
         = Some [ ("foo_event", Many [aliceEffect; bobEffect]);
                  ("bar_event", Single bobEffect) ] ->
         init None w = init (Some c) w))
  /\ (forall c config,
        objects w !! c = Some config ->
        (init (Some c) w).1 = tt
        /\ calls (exec (init (Some c)) w) = calls w ++ registrations config
        /\ listeners (exec (init (Some c)) w)
           = foldl add_listener (listeners w) (registrations config)).
Proof.
  split.
  - split; [apply result_unit|]. rewrite exec_init_default.
    split; [done|]. split; [done|].
    intros c Hc. by rewrite init_default, (init_explicit _ _ _ Hc).
  - intros c config Hc. split; [apply result_unit|].
    by rewrite (exec_init_explicit _ _ _ Hc).
Qed.

Lemma init_entry_point_witness :
  let w := store 1 [("zim", Single (fn 3))] fresh in
  listeners (exec (init None) fresh)
  = [ ("foo_event", aliceEffect); ("foo_event", bobEffect);
      ("bar_event", bobEffect) ]
  /\ listeners (exec (init (Some 1%positive)) w) = [("zim", fn 3)].
Proof.
  intros w. split.
  - exact (proj1 (proj2 (proj2 (proj1 (init_entry_point fresh))))).
  - exact (proj2 (proj2 (proj2 (init_entry_point w) 1%positive
                           [("zim", Single (fn 3))] eq_refl))).
Defined.

(** C10.  [init] does not modify its configuration argument: the heap of
    configuration objects is the same after the call, no handler has been
    invoked and nothing has been logged.  The only change is to the
    dispatch target, whose earlier listeners and earlier calls are still
    there, in place. *)
Theorem init_leaves_configuration_unchanged (config : option loc) (w : World) :
  objects (exec (init config) w) = objects w
  /\ invoked (exec (init config) w) = invoked w
  /\ console (exec (init config) w) = console w
  /\ listeners w `prefix_of` listeners (exec (init config) w)
  /\ calls w `prefix_of` calls (exec (init config) w).
Proof.
  destruct (init_untouched_fields config w) as (Ho & Hi & Hc).
  split_and!; [done..| |].
  - destruct (init_is_register_all config w) as [rs Hrs].
    unfold exec. rewrite Hrs. simpl. apply prefix_add_all.
  - destruct (init_is_register_all config w) as [rs Hrs].
    unfold exec. rewrite Hrs. simpl. by apply prefix_app_r.
Qed.

(** C2, counterexample.  With [{ a: [f, f] }] on a target without
    listeners, [f] ends up registered once for [a], not twice: the target
    drops the second, equal registration. *)
Lemma purely_additive_fails : ~ purely_additive.
Proof.
  intros Hadd.
  specialize (Hadd (store 1 [("a", Many [fn 0; fn 0])] fresh) 1%positive
                   [("a", Many [fn 0; fn 0])] eq_refl).
  vm_compute in Hadd. discriminate Hadd.
Qed.

(** C2, amended.  On a target whose list holds no duplicates, after
    [init] returns every handler of the configuration is registered
    exactly once for each event type it is listed under; the listeners
    that were there before the call are all still there, in place; the
    list holds the earlier listeners and the pairs of the configuration
    and nothing else; and it still holds no duplicates, a registration
    equal to an existing one not being added again. *)
Theorem init_registers_once (w : World) (c : loc) (config : tConfig) :
  objects w !! c = Some config ->
  NoDup (listeners w) ->
  (forall event value handler,
      (event, value) ∈ config -> handler ∈ castArray value ->
      registered event handler (listeners (exec (init (Some c)) w)) = 1)
  /\ listeners w `prefix_of` listeners (exec (init (Some c)) w)
  /\ (forall l, l ∈ listeners (exec (init (Some c)) w)
                <-> l ∈ listeners w \/ l ∈ registrations config)
  /\ NoDup (listeners (exec (init (Some c)) w)).
Proof.
  intros Hc Hnd. split.
  { intros event value handler. by apply registered_after_init. }
  rewrite (exec_init_explicit _ _ _ Hc). simpl. split_and!.
  - apply prefix_add_all.
  - intros l. apply elem_of_add_all.
  - by apply NoDup_add_all.
Qed.

Lemma init_registers_once_witness :
  let w := store 1 [("a", Many [fn 0; fn 0])] fresh in
  NoDup (listeners w)
  /\ registered "a" (fn 0) (listeners (exec (init (Some 1%positive)) w)) = 1.
Proof.
  intros w. split; [apply NoDup_nil_2|].
  apply (proj1 (init_registers_once w 1 [("a", Many [fn 0; fn 0])]
                  eq_refl (NoDup_nil_2 (A:=Listener)))
           "a" (Many [fn 0; fn 0]) (fn 0)).
  - left.
  - left.
Defined.

(** C3, counterexample.  With [{ foo_event: f }], two [init] calls on a
    target without listeners and one [foo_event], [f] is invoked once. *)
Lemma reinit_invokes_twice_fails : ~ reinit_invokes_twice.
Proof.
  intros Htwice.
  specialize (Htwice (store 1 [("foo_event", Single (fn 0))] fresh) 1%positive
                     [("foo_event", Single (fn 0))]
                     (mkEvent "foo_event" true) (Single (fn 0)) (fn 0)
                     eq_refl (NoDup_nil_2 (A:=Listener)) eq_refl).
  specialize (Htwice ltac:(discriminate) ltac:(left) ltac:(left)).
  vm_compute in Htwice. discriminate Htwice.
Qed.

(** C3, amended.  The second of two [init] calls with the same
    configuration object adds no listener, so one event whose type is a
    key of the configuration, and which reaches the target (raised on
    [document.body], it bubbles and is not of type ["load"]), invokes each
    handler listed under that key once: on the target, re-invocation is
    idempotent. *)
Theorem reinit_invokes_once
    (w : World) (c : loc) (config : tConfig)
    (event : Event) (value : tValue) (handler : tHandler) :
  objects w !! c = Some config ->
  NoDup (listeners w) ->
  bubbles event = true ->
  type event <> "load" ->
  (type event, value) ∈ config ->
  handler ∈ castArray value ->
  listeners (exec (init (Some c)) (exec (init (Some c)) w))
    = listeners (exec (init (Some c)) w)
  /\ callCount handler
       (exec (dispatchEvent event)
          (exec (init (Some c)) (exec (init (Some c)) w)))
     = callCount handler w + 1.
Proof.
  intros Hc Hnd Hb Hty Hin Hh.
  pose proof (reaches_window_true _ Hb Hty) as Hr.
  assert (objects (exec (init (Some c)) w) !! c = Some config) as Hc'.
  { by rewrite (proj1 (init_untouched_fields (Some c) w)). }
  assert (listeners (exec (init (Some c)) (exec (init (Some c)) w))
          = listeners (exec (init (Some c)) w)) as Hsame.
  { rewrite (exec_init_explicit _ _ _ Hc'). simpl.
    apply add_all_present. intros l Hl.
    rewrite (exec_init_explicit _ _ _ Hc). simpl.
    apply elem_of_add_all. by right. }
  split; [done|].
  rewrite callCount_dispatchEvent, Hsame by done.
  rewrite (registered_after_init _ _ _ _ _ _ Hc Hnd Hin Hh). f_equal.
  unfold callCount.
  by rewrite (proj1 (proj2 (init_untouched_fields (Some c) _))),
             (proj1 (proj2 (init_untouched_fields (Some c) _))).
Qed.

Lemma reinit_invokes_once_witness :
  let w := store 1 [("foo_event", Single (fn 0))] fresh in
  let event := mkEvent "foo_event" true in
  callCount (fn 0)
    (exec (dispatchEvent event)
       (exec (init (Some 1%positive)) (exec (init (Some 1%positive)) w)))
  = 1.
Proof.
  intros w event.
  apply (reinit_invokes_once w 1 [("foo_event", Single (fn 0))] event
           (Single (fn 0)) (fn 0)).
  - reflexivity.
  - apply NoDup_nil_2.
  - reflexivity.
  - discriminate.
  - left.
  - left.
Defined.

(** C4.  With [{zim: C, gir: [C, B], dib: [C, B, A], gaz: []}] over
    distinct handlers, on a target without listeners, [init] followed by
    one event each of types [zim], [dib] and [gaz] invokes [C] for [zim],
    then [C], [B] and [A] for [dib], and nothing else: [A] once, [B]
    once, [C] twice, and a handler [D] that is none of them never. *)
Theorem scenario_1_invocations (A B C D : tHandler) (w : World) (c : loc) :
  A <> B -> A <> C -> B <> C -> D <> A -> D <> B -> D <> C ->
  objects w !! c = Some (config_1 A B C) ->
  listeners w = [] ->
  invoked (exec (init (Some c) ;; raise_all ["zim"; "dib"; "gaz"]) w)
    = invoked w ++ [ (C, bubbling "zim"); (C, bubbling "dib");
                     (B, bubbling "dib"); (A, bubbling "dib") ]
  /\ callCount A (exec (init (Some c) ;; raise_all ["zim"; "dib"; "gaz"]) w)
     = callCount A w + 1
  /\ callCount B (exec (init (Some c) ;; raise_all ["zim"; "dib"; "gaz"]) w)
     = callCount B w + 1
  /\ callCount C (exec (init (Some c) ;; raise_all ["zim"; "dib"; "gaz"]) w)
     = callCount C w + 2
  /\ callCount D (exec (init (Some c) ;; raise_all ["zim"; "dib"; "gaz"]) w)
     = callCount D w.
Proof.
  intros HAB HAC HBC HDA HDB HDC Hc Hfresh.
  assert (invoked (exec (init (Some c) ;; raise_all ["zim"; "dib"; "gaz"]) w)
          = invoked w ++ [ (C, bubbling "zim"); (C, bubbling "dib");
                           (B, bubbling "dib"); (A, bubbling "dib") ])
    as Hinv.
  { assert (listeners (register_all (registrations (config_1 A B C)) w)
            = registrations (config_1 A B C)) as Hls.
    { unfold register_all. cbn [listeners]. rewrite Hfresh.
      apply (add_all_new _ []). simpl.
      repeat (apply NoDup_cons; split; [distinct_pairs|]). apply NoDup_nil_2. }
    rewrite exec_seq, (exec_init_explicit _ _ _ Hc).
    rewrite raise_all_invoked, Hls. reflexivity. }
  split; [done|].
  unfold callCount. rewrite Hinv.
  split_and!; rewrite filter_app, length_app, !filter_cons, filter_nil;
    repeat case_decide; simpl in *; try congruence; lia.
Qed.

Lemma scenario_1_invocations_witness :
  let w := store 1 (config_1 (fn 1) (fn 2) (fn 3)) fresh in
  invoked (exec (init (Some 1%positive) ;; raise_all ["zim"; "dib"; "gaz"]) w)
  = [ (fn 3, bubbling "zim"); (fn 3, bubbling "dib");
      (fn 2, bubbling "dib"); (fn 1, bubbling "dib") ].
Proof.
  intros w.
  apply (scenario_1_invocations (fn 1) (fn 2) (fn 3) (fn 4) w 1);
    (discriminate || reflexivity).
Defined.

(** C5, counterexample.  The strings the handlers log name the functions
    [aliceEffect] and [bobEffect], not [A] and [B]. *)
Lemma logs_A_and_B_fails : ~ logs_A_and_B.
Proof.
  intros Hstated.
  specialize (Hstated (store 1 config_2 fresh) 1%positive eq_refl eq_refl).
  vm_compute in Hstated. discriminate Hstated.
Qed.

(** C5, amended.  With [{ foo_event: [aliceEffect, bobEffect] }] on a
    target without listeners, one [foo_event] causes exactly two log
    emissions, ["foo_event in aliceEffect()"] and then
    ["bar_event in bobEffect()"]; and whatever event [bobEffect] is
    called with, in whatever world, it logs that same one string. *)
Theorem scenario_2_emissions (w : World) (c : loc) :
  objects w !! c = Some config_2 ->
  listeners w = [] ->
  console (exec (init (Some c) ;; dispatchEvent (bubbling "foo_event")) w)
    = console w ++ ["foo_event in aliceEffect()"; "bar_event in bobEffect()"]
  /\ (forall (event : Event) (w0 : World),
        console (exec (body bobEffect event) w0)
        = console w0 ++ ["bar_event in bobEffect()"]).
Proof.
  intros Hc Hfresh. split; [|done].
  rewrite exec_seq, (exec_init_explicit _ _ _ Hc).
  rewrite exec_dispatchEvent_reaching by done.
  unfold register_all. cbn [listeners]. rewrite Hfresh. reflexivity.
Qed.

Lemma scenario_2_emissions_witness :
  console (exec (init (Some 1%positive) ;; dispatchEvent (bubbling "foo_event"))
                (store 1 config_2 fresh))
  = ["foo_event in aliceEffect()"; "bar_event in bobEffect()"].
Proof.
  apply (scenario_2_emissions (store 1 config_2 fresh) 1); reflexivity.
Defined.

(** C9.  In every world a run can reach, the listener list of the target
    holds no pair (event type, handler) twice, whatever configurations
    were stored and however often [init] was called; so one event invokes
    each handler at most once. *)
Theorem no_duplicate_listeners (w : World) :
  reachable w ->
  NoDup (listeners w)
  /\ (forall event handler, registered event handler (listeners w) <= 1)
  /\ (forall event handler,
        callCount handler (exec (dispatchEvent event) w)
        <= callCount handler w + 1).
Proof.
  intros Hnd%reachable_NoDup. split; [done|]. split.
  - intros event handler. by apply registered_le_1.
  - intros event handler. destruct (reaches_window event) eqn:Hb.
    + rewrite callCount_dispatchEvent by done.
      pose proof (registered_le_1 (type event) handler _ Hnd). lia.
    + unfold exec. rewrite dispatchEvent_not_reaching by done. simpl. lia.
Qed.

Lemma no_duplicate_listeners_witness :
  let w0 := store 1 [("foo_event", Many [bobEffect; bobEffect])] fresh in
  let w := exec (init (Some 1%positive)) (exec (init None) w0) in
  reachable w
  /\ listeners w = [ ("foo_event", aliceEffect); ("foo_event", bobEffect);
                     ("bar_event", bobEffect) ]
  /\ NoDup (listeners w).
Proof.
  intros w0 w.
  assert (reachable w) as Hreach.
  { unfold reachable, w.
    eapply rtc_l; [apply (step_store 1 [("foo_event", Many [bobEffect; bobEffect])])|].
    eapply rtc_l; [apply (step_init None)|].
    eapply rtc_l; [apply (step_init (Some 1%positive))|].
    apply rtc_refl. }
  split; [exact Hreach|]. split; [reflexivity|].
  apply (no_duplicate_listeners w Hreach).
Defined.


(** * Further properties *)

Section reading.
Implicit Types (config : option loc) (w : World).

Lemma init_reads config w :
  init config w = (tt, register_all (registrations (entries_of config w)) w).
Proof.
  destruct config as [c|]; [|apply init_default].
  unfold init, bind, Object_entries, entries_of. cbv beta. apply outer_loop.
Qed.

Lemma exec_init config w :
  exec (init config) w = register_all (registrations (entries_of config w)) w.
Proof. unfold exec. by rewrite init_reads. Qed.

Lemma entries_of_register_all config rs w :
  entries_of config (register_all rs w) = entries_of config w.
Proof. by destruct config. Qed.

Lemma entries_of_init config config' w :
  entries_of config (exec (init config') w) = entries_of config w.
Proof. by rewrite exec_init, entries_of_register_all. Qed.

Lemma callCount_init handler config w :
  callCount handler (exec (init config) w) = callCount handler w.
Proof. by rewrite exec_init. Qed.
End reading.

Lemma registered_absent event handler (ls : list Listener) :
  (event, handler) ∉ ls -> registered event handler ls = 0.
Proof.
  intros Hno. unfold registered. rewrite filter_none; [done|].
  by intros l Hl ->.
Qed.

Lemma listed_registrations event handler config :
  listed event handler config <-> (event, handler) ∈ registrations config.
Proof. symmetry. apply elem_of_registrations. Qed.

(** X1.  After [init] with a configuration on a target without listeners,
    one event raised on [document.body] that bubbles and is not of type
    ["load"] invokes a handler once if the handler is listed under the
    event's type, and not at all if it is not. *)
Theorem event_invokes_listed_handlers
    (w : World) (c : loc) (config : tConfig)
    (event : Event) (handler : tHandler) :
  objects w !! c = Some config ->
  listeners w = [] ->
  bubbles event = true ->
  type event <> "load" ->
  (listed (type event) handler config ->
   callCount handler (exec (dispatchEvent event) (exec (init (Some c)) w))
   = callCount handler w + 1)
  /\ (~ listed (type event) handler config ->
      callCount handler (exec (dispatchEvent event) (exec (init (Some c)) w))
      = callCount handler w).
Proof.
  intros Hc Hfresh Hb Hty.
  pose proof (reaches_window_true _ Hb Hty) as Hr.
  rewrite callCount_dispatchEvent, callCount_init by done.
  split.
  - intros [value [Hin Hh]]. f_equal.
    apply (registered_after_init w c config _ value); [done| |done..].
    rewrite Hfresh. apply NoDup_nil_2.
  - intros Hno. rewrite registered_absent; [lia|].
    rewrite (exec_init_explicit _ _ _ Hc). simpl. rewrite Hfresh.
    intros [Hin|Hin]%elem_of_add_all; [by apply elem_of_nil in Hin|].
    by apply Hno, listed_registrations.
Qed.

Lemma event_invokes_listed_handlers_witness :
  let w := store 1 (config_1 (fn 1) (fn 2) (fn 3)) fresh in
  callCount (fn 2)
    (exec (dispatchEvent (bubbling "dib")) (exec (init (Some 1%positive)) w))
  = 1.
Proof.
  intros w.
  apply (event_invokes_listed_handlers w 1 (config_1 (fn 1) (fn 2) (fn 3))
           (bubbling "dib") (fn 2) eq_refl eq_refl eq_refl
           ltac:(discriminate)).
  exists (Many [fn 3; fn 2; fn 1]). split.
  - do 2 right. left.
  - right. left.
Defined.

Lemma length_add_all_le (rs : list Listener) : forall ls,
  length (foldl add_listener ls rs) <= length ls + length rs.
Proof.
  induction rs as [|r rs IH]; intros ls; simpl; [lia|].
  etrans; [apply IH|]. unfold add_listener. case_decide; [lia|].
  rewrite length_app. simpl. lia.
Qed.

Lemma add_all_full (rs : list Listener) : forall ls,
  NoDup ls ->
  length (foldl add_listener ls rs) = length ls + length rs ->
  NoDup (ls ++ rs).
Proof.
  induction rs as [|r rs IH]; intros ls Hnd Hlen; simpl in *.
  - by rewrite app_nil_r.
  - unfold add_listener in Hlen at 2. case_decide as Hin.
    + pose proof (length_add_all_le rs ls). lia.
    + rewrite (assoc_L (++) ls [r] rs : ls ++ r :: rs = (ls ++ [r]) ++ rs).
      apply IH.
      * apply NoDup_app. split_and!; [done| |apply NoDup_singleton].
        by intros x Hx ->%list_elem_of_singleton.
      * rewrite Hlen, length_app. simpl. lia.
Qed.

(** X2.  On a target whose list holds no duplicates, [init] appends every
    pair of the configuration, in order, exactly when no pair of the
    configuration is on the target already or occurs twice in the
    configuration; otherwise the list ends up shorter than that. *)
Theorem appends_all_iff_no_duplicate
    (w : World) (c : loc) (config : tConfig) :
  objects w !! c = Some config ->
  NoDup (listeners w) ->
  (listeners (exec (init (Some c)) w) = listeners w ++ registrations config
   <-> NoDup (listeners w ++ registrations config))
  /\ (~ NoDup (listeners w ++ registrations config) ->
      length (listeners (exec (init (Some c)) w))
      < length (listeners w) + length (registrations config)).
Proof.
  intros Hc Hnd. rewrite (exec_init_explicit _ _ _ Hc). simpl. split.
  - split.
    + intros <-. by apply NoDup_add_all.
    + apply add_all_new.
  - intros Hdup.
    pose proof (length_add_all_le (registrations config) (listeners w)) as Hle.
    destruct (decide (length (foldl add_listener (listeners w)
                                (registrations config))
                      = length (listeners w) + length (registrations config)))
      as [Heq|Hne]; [|lia].
    exfalso. by apply Hdup, add_all_full.
Qed.

Lemma appends_all_iff_no_duplicate_witness :
  let w := store 1 [("a", Many [fn 0; fn 0])] fresh in
  length (listeners (exec (init (Some 1%positive)) w)) < 2.
Proof.
  intros w.
  apply (appends_all_iff_no_duplicate w 1 [("a", Many [fn 0; fn 0])]).
  - reflexivity.
  - apply NoDup_nil_2.
  - apply (bool_decide_unpack _). vm_compute. exact I.
Defined.

(** X3.  After [init] on a target without listeners, with a configuration
    in which no pair occurs twice, one event raised on [document.body]
    that bubbles and is not of type ["load"] invokes exactly the handlers
    listed under its type, in the order of the configuration, and the
    console receives their output in that order. *)
Theorem delivery_follows_configuration
    (w : World) (c : loc) (config : tConfig) (event : Event) :
  objects w !! c = Some config ->
  listeners w = [] ->
  NoDup (registrations config) ->
  bubbles event = true ->
  type event <> "load" ->
  invoked (exec (dispatchEvent event) (exec (init (Some c)) w))
    = invoked w
      ++ ((., event) <$> callbacks (type event) (registrations config))
  /\ console (exec (dispatchEvent event) (exec (init (Some c)) w))
     = console w
       ++ (callbacks (type event) (registrations config) ≫= output).
Proof.
  intros Hc Hfresh Hnd Hb Hty.
  rewrite exec_dispatchEvent_reaching by by apply reaches_window_true.
  rewrite (exec_init_explicit _ _ _ Hc). simpl. rewrite Hfresh.
  by rewrite (add_all_new _ []).
Qed.

Lemma delivery_follows_configuration_witness :
  let w := store 1 (config_1 (fn 1) (fn 2) (fn 3)) fresh in
  invoked (exec (dispatchEvent (bubbling "dib"))
                (exec (init (Some 1%positive)) w))
  = [ (fn 3, bubbling "dib"); (fn 2, bubbling "dib"); (fn 1, bubbling "dib") ].
Proof.
  intros w.
  apply (delivery_follows_configuration w 1 (config_1 (fn 1) (fn 2) (fn 3))
           (bubbling "dib")).
  - reflexivity.
  - reflexivity.
  - apply (bool_decide_unpack _). vm_compute. exact I.
  - reflexivity.
  - discriminate.
Defined.

(** One step only ever appends: to the listener list, to the call log, to
    the invocation record and to the console. *)
Lemma step_appends w w' :
  step w w' ->
  listeners w `prefix_of` listeners w'
  /\ calls w `prefix_of` calls w'
  /\ invoked w `prefix_of` invoked w'
  /\ console w `prefix_of` console w'.
Proof.
  intros [l config w0|config w0|event w0].
  - done.
  - rewrite exec_init. simpl. split_and!; [apply prefix_add_all| |done..].
    by apply prefix_app_r.
  - destruct (reaches_window event) eqn:Hb.
    + rewrite exec_dispatchEvent_reaching by done. simpl.
      split_and!; [done..| |]; by apply prefix_app_r.
    + unfold exec. by rewrite dispatchEvent_not_reaching.
Qed.

(** X4.  Nothing the program or its environment does removes or reorders
    a listener: along any run, the earlier listener list is a prefix of
    the later one, and so are the call log, the invocation record and the
    console. *)
Theorem run_only_appends (w w' : World) :
  rtc step w w' ->
  listeners w `prefix_of` listeners w'
  /\ calls w `prefix_of` calls w'
  /\ invoked w `prefix_of` invoked w'
  /\ console w `prefix_of` console w'.
Proof.
  induction 1 as [w|w w1 w' Hstep _ IH]; [done|].
  destruct (step_appends _ _ Hstep) as (H1 & H2 & H3 & H4).
  destruct IH as (I1 & I2 & I3 & I4).
  split_and!; by etrans.
Qed.

Lemma run_only_appends_witness :
  let w := exec (init None) fresh in
  let w' := exec (dispatchEvent (bubbling "foo_event")) (exec (init None) w) in
  rtc step w w' /\ listeners w `prefix_of` listeners w'.
Proof.
  intros w w'.
  assert (rtc step w w') as Hrun.
  { eapply rtc_l; [apply (step_init None)|].
    eapply rtc_l; [apply (step_dispatch (bubbling "foo_event"))|].
    apply rtc_refl. }
  split; [exact Hrun|]. apply (run_only_appends w w' Hrun).
Defined.

Lemma step_listeners_of_calls w w' :
  step w w' ->
  listeners w = foldl add_listener [] (calls w) ->
  listeners w' = foldl add_listener [] (calls w').
Proof.
  intros [l config w0|config w0|event w0] Hinv.
  - done.
  - rewrite exec_init. simpl. by rewrite foldl_app, <- Hinv.
  - destruct (dispatchEvent_untouched_fields event w0) as (_ & -> & ->).
    done.
Qed.

(** X5.  In every world a run can reach, the listener list is the log of
    [window.addEventListener] calls with every repetition of an earlier
    call left out; so a pair is registered exactly if it was ever passed
    to [window.addEventListener]. *)
Theorem listeners_are_the_distinct_calls (w : World) :
  reachable w ->
  listeners w = foldl add_listener [] (calls w)
  /\ (forall l, l ∈ listeners w <-> l ∈ calls w).
Proof.
  intros Hreach.
  assert (listeners w = foldl add_listener [] (calls w)) as Hinv.
  { revert w Hreach.
    apply (rtc_ind_r
             (fun w => listeners w = foldl add_listener [] (calls w)) fresh).
    - done.
    - intros w w' _ Hstep Hinv. by eapply step_listeners_of_calls. }
  split; [done|]. intros l. rewrite Hinv, elem_of_add_all.
  split; [|by right]. intros [Hin|Hin]; [by apply elem_of_nil in Hin|done].
Qed.

Lemma listeners_are_the_distinct_calls_witness :
  let w := exec (init None) (exec (init None) fresh) in
  reachable w
  /\ length (calls w) = 6
  /\ listeners w = foldl add_listener [] (calls w).
Proof.
  intros w.
  assert (reachable w) as Hreach.
  { unfold reachable, w.
    eapply rtc_l; [apply (step_init None)|].
    eapply rtc_l; [apply (step_init None)|].
    apply rtc_refl. }
  split; [exact Hreach|]. split; [reflexivity|].
  apply (listeners_are_the_distinct_calls w Hreach).
Defined.





Lemma iter_init_objects config n w :
  objects (Nat.iter n (exec (init config)) w) = objects w.
Proof.
  induction n as [|n IH]; [done|]. simpl.
  by rewrite (proj1 (init_untouched_fields config _)).
Qed.

Lemma entries_of_objects config w w' :
  objects w = objects w' -> entries_of config w = entries_of config w'.
Proof. intros Ho. destruct config; simpl; by rewrite ?Ho. Qed.

(** X7.  Calling [init] again with the same argument, any number of
    times, leaves the listener list as the first call left it, whatever
    the argument and whatever was registered before. *)
Theorem repeated_init_registers_once
    (config : option loc) (n : nat) (w : World) :
  listeners (Nat.iter (S n) (exec (init config)) w)
  = listeners (exec (init config) w).
Proof.
  induction n as [|n IH]; [done|].
  change (Nat.iter (S (S n)) (exec (init config)) w)
    with (exec (init config) (Nat.iter (S n) (exec (init config)) w)).
  rewrite exec_init. cbn [listeners register_all].
  rewrite (entries_of_objects config _ w) by apply iter_init_objects.
  rewrite IH. apply add_all_present.
  intros l Hl. rewrite exec_init. simpl. apply elem_of_add_all. by right.
Qed.

(** How often a run of events of one type invokes a handler. *)
Lemma callCount_raise_replicate handler eventType (n : nat) : forall w,
  eventType <> "load" ->
  callCount handler (exec (raise_all (replicate n eventType)) w)
  = callCount handler w + n * registered eventType handler (listeners w).
Proof.
  unfold raise_all. intros w Hty.
  induction n as [|n IH] in w |- *.
  - unfold exec. simpl. lia.
  - cbn [replicate for_of]. rewrite exec_seq, IH.
    rewrite callCount_dispatchEvent by by apply reaches_window_bubbling.
    destruct (dispatchEvent_untouched_fields (bubbling eventType) w)
      as (_ & -> & _).
    simpl. lia.
Qed.

(** X8.  The listeners [init] registers keep answering, and raising
    events registers and removes nothing: after [init] on a target
    without listeners and [n] bubbling events of one type other than
    ["load"], the listener list is as [init] left it, a handler listed
    under that type has been invoked [n] times, and a handler not listed
    under it not at all. *)
Theorem every_event_is_answered
    (n : nat) (w : World) (c : loc) (config : tConfig)
    (eventType : string) (handler : tHandler) :
  objects w !! c = Some config ->
  listeners w = [] ->
  eventType <> "load" ->
  listeners (exec (raise_all (replicate n eventType)) (exec (init (Some c)) w))
    = listeners (exec (init (Some c)) w)
  /\ (listed eventType handler config ->
      callCount handler
        (exec (raise_all (replicate n eventType)) (exec (init (Some c)) w))
      = callCount handler w + n)
  /\ (~ listed eventType handler config ->
      callCount handler
        (exec (raise_all (replicate n eventType)) (exec (init (Some c)) w))
      = callCount handler w).
Proof.
  intros Hc Hfresh Hty.
  split; [by rewrite raise_all_effect|].
  rewrite callCount_raise_replicate, callCount_init by done.
  split.
  - intros [value [Hin Hh]].
    rewrite (registered_after_init w c config _ value); [lia|done| |done..].
    rewrite Hfresh. apply NoDup_nil_2.
  - intros Hno. rewrite registered_absent; [lia|].
    rewrite (exec_init_explicit _ _ _ Hc). simpl. rewrite Hfresh.
    intros [Hin|Hin]%elem_of_add_all; [by apply elem_of_nil in Hin|].
    by apply Hno, listed_registrations.
Qed.

Lemma every_event_is_answered_witness :
  let w := store 1 (config_1 (fn 1) (fn 2) (fn 3)) fresh in
  callCount (fn 3)
    (exec (raise_all (replicate 4 "zim")) (exec (init (Some 1%positive)) w))
  = 4.
Proof.
  intros w.
  apply (every_event_is_answered 4 w 1 (config_1 (fn 1) (fn 2) (fn 3))
           "zim" (fn 3) eq_refl eq_refl ltac:(discriminate)).
  exists (Single (fn 3)). split; left.
Defined.

Section first_stage.
Implicit Types (config : tConfig_v1) (w : World).

Lemma init_v1_loop config : forall w,
  for_of config (fun '(event, handler) => window_addEventListener event handler) w
  = (tt, register_all config w).
Proof.
  induction config as [|[event handler] config IH]; intros w.
  - simpl. unfold ret. by rewrite register_all_nil.
  - cbn [for_of]. unfold bind at 1.
    rewrite addEventListener_register, IH.
    by rewrite <- register_all_app.
Qed.

Lemma registrations_single config :
  registrations (prod_map id Single <$> config) = config.
Proof.
  induction config as [|[event handler] config IH]; [done|].
  rewrite fmap_cons. unfold registrations in *. rewrite bind_cons.
  rewrite IH. done.
Qed.
End first_stage.

(** X9.  The final [init] still serves the configurations of the first
    stage: given an object that maps every event type to one handler, it
    does exactly what the first [init] did with it. *)
Theorem init_extends_init_v1
    (constant config : tConfig_v1) (w : World) (c : loc) :
  objects w !! c = Some (prod_map id Single <$> config) ->
  init (Some c) w = init_v1 constant (Some config) w.
Proof.
  intros Hc. rewrite (init_explicit _ _ _ Hc). unfold init_v1.
  by rewrite init_v1_loop, registrations_single.
Qed.

Lemma init_extends_init_v1_witness :
  let w := store 1 [("foo_event", Single aliceEffect);
                    ("bar_event", Single bobEffect)] fresh in
  init (Some 1%positive) w = init_v1 [] (Some LISTENER_CONFIG_v1) w.
Proof.
  intros w. apply (init_extends_init_v1 [] LISTENER_CONFIG_v1 w 1).
  reflexivity.
Defined.

Section stages.
Variable out : tHandler -> list string.
Variable body' : tHandler -> Event -> JS unit.
Hypothesis body'_out : forall handler event w,
  body' handler event w
  = (tt, {| objects := objects w;
            listeners := listeners w;
            calls := calls w;
            invoked := invoked w;
            console := console w ++ out handler |}).

Lemma deliver_with_nil event w : deliver_with out [] event w = w.
Proof. destruct w. unfold deliver_with. simpl. by rewrite !app_nil_r. Qed.

Lemma deliver_with_app hs1 hs2 event w :
  deliver_with out (hs1 ++ hs2) event w
  = deliver_with out hs2 event (deliver_with out hs1 event w).
Proof.
  unfold deliver_with. simpl. by rewrite fmap_app, bind_app, !app_assoc.
Qed.

Lemma call_with_deliver handler event w :
  call_with body' handler event w = (tt, deliver_with out [handler] event w).
Proof.
  unfold call_with, bind, deliver_with. rewrite body'_out. simpl.
  by rewrite app_nil_r.
Qed.

Lemma delivery_loop_with event hs : forall w,
  for_of hs (fun handler => call_with body' handler event) w
  = (tt, deliver_with out hs event w).
Proof.
  induction hs as [|h hs IH]; intros w; simpl.
  - unfold ret. by rewrite deliver_with_nil.
  - unfold bind. rewrite call_with_deliver, IH. by rewrite <- deliver_with_app.
Qed.

Lemma exec_dispatchEvent_with event w :
  exec (dispatchEvent_with body' event) w
  = deliver_with out (delivered event (listeners w)) event w.
Proof.
  unfold exec, dispatchEvent_with, delivered.
  destruct (reaches_window event).
  - by rewrite delivery_loop_with.
  - by rewrite deliver_with_nil.
Qed.
End stages.

Lemma body_logic_creep_output handler event w :
  body_logic_creep handler event w
  = (tt, {| objects := objects w;
            listeners := listeners w;
            calls := calls w;
            invoked := invoked w;
            console := console w ++ output_logic_creep handler |}).
Proof.
  destruct handler; unfold body_logic_creep, body, bind, console_debug, ret;
    simpl; [by rewrite <- app_assoc|done|].
  destruct w. simpl. by rewrite app_nil_r.
Qed.

(** X10.  Moving [bobEffect] out of [aliceEffect] and into the
    configuration changed nothing on the console: on a target without
    listeners, the "Logic creep" stage (its [init] without an argument,
    [aliceEffect] calling [bobEffect]) and the final stage ([init]
    without an argument, [foo_event] mapped to both handlers) log the
    same lines, in the same order, for every event. *)
Theorem logic_creep_logs_the_same (event : Event) (w : World) :
  listeners w = [] ->
  console (exec (init_v1 LISTENER_CONFIG_v1 None ;;
                 dispatchEvent_with body_logic_creep event) w)
  = console (exec (init None ;; dispatchEvent event) w).
Proof.
  intros Hfresh. rewrite !exec_seq.
  rewrite (exec_dispatchEvent_with output_logic_creep body_logic_creep
             body_logic_creep_output).
  rewrite exec_dispatchEvent, exec_init_default.
  unfold init_v1, exec at 1. rewrite init_v1_loop.
  unfold register_all, deliver_with, deliver, delivered.
  cbn [listeners console snd]. rewrite Hfresh. f_equal.
  destruct (reaches_window event); [|done].
  unfold callbacks. cbn [foldl add_listener registrations].
  vm_compute (foldl add_listener [] LISTENER_CONFIG_v1).
  vm_compute (foldl add_listener [] (registrations LISTENER_CONFIG)).
  rewrite !filter_cons, !filter_nil. simpl.
  repeat case_decide; try done; congruence.
Qed.

Lemma logic_creep_logs_the_same_witness :
  console (exec (init_v1 LISTENER_CONFIG_v1 None ;;
                 dispatchEvent_with body_logic_creep (bubbling "foo_event"))
             fresh)
  = ["foo_event in aliceEffect()"; "bar_event in bobEffect()"].
Proof.
  etrans.
  - apply (logic_creep_logs_the_same (bubbling "foo_event") fresh).
    reflexivity.
  - reflexivity.
Defined.

Lemma registrations_nil_iff (config : tConfig) :
  registrations config = []
  <-> forall event value, (event, value) ∈ config -> value = Many [].
Proof.
  split.
  - intros Hnil event value Hin.
    destruct value as [handler|[|handler handlers]]; [|done|].
    + assert ((event, handler) ∈ registrations config) as Hr.
      { apply elem_of_registrations. exists (Single handler).
        split; [done|left]. }
      rewrite Hnil in Hr. by apply elem_of_nil in Hr.
    + assert ((event, handler) ∈ registrations config) as Hr.
      { apply elem_of_registrations. exists (Many (handler :: handlers)).
        split; [done|left]. }
      rewrite Hnil in Hr. by apply elem_of_nil in Hr.
  - intros Hempty. destruct (registrations config) as [|[event handler] rs] eqn:Hrs;
      [done|]. exfalso.
    assert ((event, handler) ∈ registrations config) as Hr by (rewrite Hrs; left).
    apply elem_of_registrations in Hr as [value [Hin Hh]].
    rewrite (Hempty _ _ Hin) in Hh. by apply elem_of_nil in Hh.
Qed.

(** X11.  [init] leaves the world exactly as it found it, without a
    single [window.addEventListener] call, if and only if every value of
    the configuration is an empty sequence; the empty object is the
    plainest such configuration. *)
Theorem init_does_nothing_iff_all_empty
    (w : World) (c : loc) (config : tConfig) :
  objects w !! c = Some config ->
  exec (init (Some c)) w = w
  <-> forall event value, (event, value) ∈ config -> value = Many [].
Proof.
  intros Hc. rewrite (exec_init_explicit _ _ _ Hc).
  rewrite <- registrations_nil_iff. split.
  - intros Hsame. apply (f_equal calls) in Hsame. simpl in Hsame.
    apply (app_inv_head (calls w)). by rewrite app_nil_r.
  - intros ->. apply register_all_nil.
Qed.

Lemma init_does_nothing_iff_all_empty_witness :
  let w := store 1 [("gaz", Many [])] fresh in
  exec (init (Some 1%positive)) w = w.
Proof.
  intros w.
  apply (init_does_nothing_iff_all_empty w 1 [("gaz", Many [])] eq_refl).
  intros event value [Heq|Hin]%elem_of_cons.
  - by injection Heq as -> ->.
  - by apply elem_of_nil in Hin.
Defined.
